(** * grpc_zerolog: the option set of the logging interceptor (options.go)

    A shallow embedding of [options.go] and the properties of its
    functional-options builder.

    Go values are represented as follows.
    - [*options] pointers are locations of a store of [options] records;
      a closure of type [Option] receives such a pointer and updates the
      store, exactly like [func(o *options) { o.levelFunc = f }].
    - A Go function value may be [nil]: the three function types
      [CodeToLevel], [Decider] and [Option] are options of Rocq functions,
      [None] standing for [nil].
    - A run-time panic (calling a nil function, dereferencing an
      unallocated pointer) is the [None] outcome of the [Go] monad.
    - A slice is represented by the sequence of its elements.  Nothing in
      options.go indexes into, appends to or re-slices a slice, so the
      sharing of backing arrays is not observable by the code of this
      file; a nil slice and an empty slice are both the empty sequence. *)

From stdpp Require Import gmap strings list fin_maps.

(** ** External types *)

(** Modelled from the spec: the status codes of the RPC framework (package
    google.golang.org/grpc/codes) are not part of this repository's sources.
    The specification takes them as an enumeration that tells the success
    code [OK] from every failure code, [NotFound] being one of the latter.
    They are numbered here as that package numbers them; [codes.Code] is an
    unsigned 32-bit integer, and no arithmetic is done on it. *)
Definition Code : Type := N.
Definition OK : Code := 0%N.
Definition NotFound : Code := 5%N.

(** Modelled from the spec: the severities of the logging engine (package
    github.com/rs/zerolog) are not part of this repository's sources.  The
    specification takes them as an enumeration with distinct Info and Error
    severities.  They are numbered here as that package numbers them;
    [zerolog.Level] is a signed 8-bit integer, and no arithmetic is done on
    it. *)
Definition Level : Type := Z.
Definition InfoLevel : Level := 1%Z.
Definition ErrorLevel : Level := 3%Z.

(** Go's [error] interface: [None] is the nil error, [Some msg] an error
    whose [Error()] text is [msg]. *)
Definition error : Type := option string.

(** ** LoggableEvent *)

(** [type LoggableEvent uint], with four constants numbered by [iota].  Any
    unsigned integer converts to a [LoggableEvent]; the four constants are
    the named ones. *)
Definition LoggableEvent : Type := N.
Definition StartCall : LoggableEvent := 0%N.
Definition FinishCall : LoggableEvent := 1%N.
Definition PayloadReceived : LoggableEvent := 2%N.
Definition PayloadSent : LoggableEvent := 3%N.

(** ** Function types and the options record *)

Definition CodeToLevel : Type := option (Code → Level).
Definition Decider : Type := option (string → error → bool).

Record options : Type := mk_options {
  levelFunc : CodeToLevel;
  shouldLog : Decider;
  loggableEvents : list LoggableEvent
}.

(** The zero value [options{}]. *)
Definition zero_options : options :=
  {| levelFunc := None; shouldLog := None; loggableEvents := [] |}.

(** ** The store and the monad of Go computations *)

Definition loc : Type := positive.
Abbreviation store := (gmap loc options).

(** A computation reads and updates the store and either returns a value
    or panics. *)
Definition Go (A : Type) : Type := store → option (A * store).

#[global] Instance Go_ret : MRet Go := λ A a σ, Some (a, σ).
#[global] Instance Go_bind : MBind Go := λ A B k m σ,
  match m σ with
  | Some (a, σ') => k a σ'
  | None => None
  end.

Definition panic {A : Type} : Go A := λ _, None.

(** [*p] *)
Definition load (p : loc) : Go options := λ σ,
  match σ !! p with
  | Some v => Some (v, σ)
  | None => None
  end.

(** [*p = v] *)
Definition assign (p : loc) (v : options) : Go unit := λ σ,
  match σ !! p with
  | Some _ => Some ((), <[p := v]> σ)
  | None => None
  end.

(** The package-level variable [defaultOptions] holds the address of a
    record allocated when the package is initialised.  That address is
    reserved: the allocator never hands it out. *)
Definition defaultOptions : loc := 1%positive.

(** The address of the next record to be allocated. *)
Definition fresh_loc (σ : store) : loc := fresh ({[defaultOptions]} ∪ dom σ).

(** [&options{...}]: a fresh record. *)
Definition new (v : options) : Go loc := λ σ,
  let p := fresh_loc σ in Some (p, <[p := v]> σ).

(** ** Calls through function values *)

Definition call_CodeToLevel (f : CodeToLevel) (code : Code) : option Level :=
  match f with
  | Some g => Some (g code)
  | None => None
  end.

Definition call_Decider (f : Decider) (fullMethodName : string) (err : error)
  : option bool :=
  match f with
  | Some g => Some (g fullMethodName err)
  | None => None
  end.

(** [type Option func(o *options)] *)
Definition Option : Type := option (loc → Go unit).

Definition call_Option (o : Option) (p : loc) : Go unit :=
  match o with
  | Some g => g p
  | None => panic
  end.

(** ** Defaults *)

Definition DefaultCodeToLevelFunc : CodeToLevel :=
  Some (λ code, if (code =? OK)%N then InfoLevel else ErrorLevel).

Definition DefaultDeciderFunc : Decider :=
  Some (λ fullMethodName err, true).

(** The composite literal that [defaultOptions] points to. *)
Definition defaultOptions_lit : options :=
  {| levelFunc := DefaultCodeToLevelFunc;
     shouldLog := DefaultDeciderFunc;
     loggableEvents := [StartCall; FinishCall] |}.

(** The store right after package initialisation. *)
Definition init_store : store := {[ defaultOptions := defaultOptions_lit ]}.

(** ** The three option constructors *)

(** [o.levelFunc = f] *)
Definition WithLevels (f : CodeToLevel) : Option :=
  Some (λ o,
    v ← load o;
    assign o {| levelFunc := f;
                shouldLog := shouldLog v;
                loggableEvents := loggableEvents v |}).

(** [o.shouldLog = f] *)
Definition WithDecider (f : Decider) : Option :=
  Some (λ o,
    v ← load o;
    assign o {| levelFunc := levelFunc v;
                shouldLog := f;
                loggableEvents := loggableEvents v |}).

(** [o.loggableEvents = events] *)
Definition WithLogOnEvents (events : list LoggableEvent) : Option :=
  Some (λ o,
    v ← load o;
    assign o {| levelFunc := levelFunc v;
                shouldLog := shouldLog v;
                loggableEvents := events |}).

(** ** evaluateOptions *)

(** [for _, o := range opts { o(optCopy) }] *)
Fixpoint range_opts (opts : list Option) (optCopy : loc) : Go unit :=
  match opts with
  | [] => mret ()
  | o :: rest => call_Option o optCopy;; range_opts rest optCopy
  end.

Definition evaluateOptions (opts : list Option) : Go loc :=
  optCopy ← new zero_options;
  d ← load defaultOptions;
  assign optCopy d;;
  range_opts opts optCopy;;
  mret optCopy.

(** The record behind the pointer that [evaluateOptions] returns. *)
Definition snapshot (opts : list Option) (σ : store) : option options :=
  match evaluateOptions opts σ with
  | Some (p, σ') => σ' !! p
  | None => None
  end.

(** ** Override directives *)

(** An override directive is the result of calling one of the three
    constructors; [directive] records which call, with its argument. *)
Inductive directive : Type :=
| CallWithLevels (f : CodeToLevel)
| CallWithDecider (f : Decider)
| CallWithLogOnEvents (events : list LoggableEvent).

Definition directive_Option (x : directive) : Option :=
  match x with
  | CallWithLevels f => WithLevels f
  | CallWithDecider f => WithDecider f
  | CallWithLogOnEvents events => WithLogOnEvents events
  end.

(** What a directive supplies for each field, if it targets that field. *)
Definition supplies_levelFunc (x : directive) : option CodeToLevel :=
  match x with CallWithLevels f => Some f | _ => None end.

Definition supplies_shouldLog (x : directive) : option Decider :=
  match x with CallWithDecider f => Some f | _ => None end.

Definition supplies_loggableEvents (x : directive)
  : option (list LoggableEvent) :=
  match x with CallWithLogOnEvents events => Some events | _ => None end.

(** The value supplied by the last directive of [ds] that targets the field
    selected by [sel]; [None] when no directive of [ds] targets it. *)
Definition last_supplied {A : Type} (sel : directive → option A)
    (ds : list directive) : option A :=
  last (omap sel ds).

(** The effect of one directive on the record it is applied to. *)
Definition override (v : options) (x : directive) : options :=
  match x with
  | CallWithLevels f =>
      {| levelFunc := f; shouldLog := shouldLog v;
         loggableEvents := loggableEvents v |}
  | CallWithDecider f =>
      {| levelFunc := levelFunc v; shouldLog := f;
         loggableEvents := loggableEvents v |}
  | CallWithLogOnEvents events =>
      {| levelFunc := levelFunc v; shouldLog := shouldLog v;
         loggableEvents := events |}
  end.

(** An [Option] that is a total function on the options record: it is not
    nil, and called with a pointer to an allocated record it returns
    normally.  Go never deallocates a reachable record, so the record is
    still allocated afterwards. *)
Definition total_Option (o : Option) : Prop :=
  ∃ g, o = Some g ∧
    ∀ (p : loc) (σ : store), is_Some (σ !! p) →
      ∃ σ' : store, g p σ = Some ((), σ') ∧ is_Some (σ' !! p).

(** ** Queries of the interceptor *)

(** Modelled from the spec: the interceptor that consults the snapshot is not
    part of options.go.  Section 6 of the specification describes its query
    [isEventEnabled(event)] as a membership test against the stored event
    set. *)
Definition isEventEnabled (o : options) (event : LoggableEvent) : bool :=
  bool_decide (event ∈ loggableEvents o).

(** ** The field a directive writes *)

Inductive field : Type := LevelFunc | ShouldLog | LoggableEvents.

#[global] Instance field_eq_dec : EqDecision field.
Proof. solve_decision. Defined.

(** [WithLevels] writes [levelFunc], [WithDecider] writes [shouldLog] and
    [WithLogOnEvents] writes [loggableEvents]. *)
Definition target (x : directive) : field :=
  match x with
  | CallWithLevels _ => LevelFunc
  | CallWithDecider _ => ShouldLog
  | CallWithLogOnEvents _ => LoggableEvents
  end.

(** The directives of a list that write the field [f], in their order. *)
Definition writers (f : field) (ds : list directive) : list directive :=
  filter (λ x, target x = f) ds.

(** * Properties *)

(** ** Store primitives *)

Lemma load_allocated (p : loc) (σ : store) (v : options) :
  σ !! p = Some v → load p σ = Some (v, σ).
Proof. intros Hp. unfold load. by rewrite Hp. Qed.

Lemma assign_allocated (p : loc) (σ : store) (v w : options) :
  σ !! p = Some v → assign p w σ = Some ((), <[p := w]> σ).
Proof. intros Hp. unfold assign. by rewrite Hp. Qed.

Lemma fresh_loc_not_allocated (σ : store) : σ !! fresh_loc σ = None.
Proof.
  apply not_elem_of_dom. intros Hin.
  apply (is_fresh ({[defaultOptions]} ∪ dom σ)). set_solver.
Qed.

Lemma fresh_loc_not_defaultOptions (σ : store) : fresh_loc σ ≠ defaultOptions.
Proof.
  intros Heq. apply (is_fresh ({[defaultOptions]} ∪ dom σ)).
  fold (fresh_loc σ). rewrite Heq. set_solver.
Qed.

Lemma Go_bind_Some {A B : Type} (m : Go A) (k : A → Go B) (σ σ' : store) (a : A) :
  m σ = Some (a, σ') → (m ≫= k) σ = k a σ'.
Proof. intros Hm. unfold mbind, Go_bind. by rewrite Hm. Qed.

(** One step of a computation whose first action is known to succeed. *)
Ltac go_step H := rewrite (Go_bind_Some _ _ _ _ _ H).

(** ** The constructors, one call at a time *)

Lemma call_directive (x : directive) (p : loc) (σ : store) (v : options) :
  σ !! p = Some v →
  call_Option (directive_Option x) p σ = Some ((), <[p := override v x]> σ).
Proof.
  intros Hp. destruct x; simpl; go_step (load_allocated _ _ _ Hp);
    by rewrite (assign_allocated _ _ v).
Qed.

Lemma directive_total (x : directive) : total_Option (directive_Option x).
Proof.
  assert (∃ g, directive_Option x = Some g) as [g Hg] by (destruct x; eauto).
  exists g. split; [done|]. intros p σ [v Hp].
  pose proof (call_directive x p σ v Hp) as Hcall.
  rewrite Hg in Hcall. simpl in Hcall.
  eexists. split; [exact Hcall|]. rewrite lookup_insert_eq. eauto.
Qed.

(** C3: [DefaultCodeToLevelFunc] is a non-nil function that returns a level
    for every status code: [InfoLevel] for [OK], and [ErrorLevel] for every
    code different from [OK] (for instance [NotFound]). *)
Theorem DefaultCodeToLevelFunc_OK_else_Error :
  call_CodeToLevel DefaultCodeToLevelFunc OK = Some InfoLevel ∧
  (∀ code : Code, code ≠ OK →
     call_CodeToLevel DefaultCodeToLevelFunc code = Some ErrorLevel) ∧
  call_CodeToLevel DefaultCodeToLevelFunc NotFound = Some ErrorLevel.
Proof.
  split; [reflexivity|]. split; [|reflexivity].
  intros code Hcode. simpl. f_equal.
  destruct (N.eqb_spec code OK) as [Heq|Hne]; [contradiction|reflexivity].
Qed.

Lemma DefaultCodeToLevelFunc_OK_else_Error_witness :
  (16%N : Code) ≠ OK ∧
  call_CodeToLevel DefaultCodeToLevelFunc 16%N = Some ErrorLevel.
Proof.
  split; [discriminate|].
  apply (proj1 (proj2 DefaultCodeToLevelFunc_OK_else_Error)). discriminate.
Defined.

(** C4: [DefaultDeciderFunc] is a non-nil function that returns [true] for
    every full method name and every error value, the nil error included. *)
Theorem DefaultDeciderFunc_always_true (fullMethodName : string) (err : error) :
  call_Decider DefaultDeciderFunc fullMethodName err = Some true.
Proof. reflexivity. Qed.

(** ** The loop over the options *)

Lemma range_directives (ds : list directive) (p : loc) (σ : store) (v : options) :
  σ !! p = Some v →
  range_opts (directive_Option <$> ds) p σ
  = Some ((), <[p := foldl override v ds]> σ).
Proof.
  revert σ v. induction ds as [|x ds IH]; intros σ v Hp; simpl.
  - by rewrite insert_id.
  - go_step (call_directive x p σ v Hp).
    rewrite (IH _ (override v x)) by apply lookup_insert_eq.
    by rewrite insert_insert_eq.
Qed.

Lemma range_total (opts : list Option) (p : loc) (σ : store) :
  Forall total_Option opts → is_Some (σ !! p) →
  ∃ σ' : store, range_opts opts p σ = Some ((), σ') ∧ is_Some (σ' !! p).
Proof.
  intros Hall. revert σ.
  induction Hall as [|o opts (g & -> & Hg) _ IH]; intros σ Hp; simpl.
  - eauto.
  - destruct (Hg p σ Hp) as (σ1 & Hcall & Hp1).
    go_step Hcall. by apply IH.
Qed.

(** A nil option in the list makes the loop panic: totality of the options is
    needed for the call to return. *)
Example evaluateOptions_nil_Option_panics :
  evaluateOptions [WithLogOnEvents [PayloadSent]; None] init_store = None.
Proof. reflexivity. Qed.

(** ** Last write wins, on records *)

Lemma last_supplied_cons {A : Type} (sel : directive → option A)
    (x : directive) (ds : list directive) (a : A) :
  default a (last_supplied sel (x :: ds))
  = default (default a (sel x)) (last_supplied sel ds).
Proof.
  unfold last_supplied.
  change (omap sel (x :: ds))
    with (match sel x with Some b => b :: omap sel ds | None => omap sel ds end).
  destruct (sel x) as [b|]; simpl default; [|done].
  rewrite last_cons. by destruct (last (omap sel ds)).
Qed.

Lemma last_supplied_skip {A : Type} (sel : directive → option A)
    (x : directive) (ds1 ds2 : list directive) :
  sel x = None →
  last_supplied sel (ds1 ++ x :: ds2) = last_supplied sel (ds1 ++ ds2).
Proof.
  intros Hx. unfold last_supplied. rewrite !omap_app. simpl. by rewrite Hx.
Qed.

Lemma foldl_override_levelFunc (ds : list directive) (v : options) :
  levelFunc (foldl override v ds)
  = default (levelFunc v) (last_supplied supplies_levelFunc ds).
Proof.
  revert v. induction ds as [|x ds IH]; intros v; [done|].
  rewrite last_supplied_cons. simpl. rewrite IH. by destruct x.
Qed.

Lemma foldl_override_shouldLog (ds : list directive) (v : options) :
  shouldLog (foldl override v ds)
  = default (shouldLog v) (last_supplied supplies_shouldLog ds).
Proof.
  revert v. induction ds as [|x ds IH]; intros v; [done|].
  rewrite last_supplied_cons. simpl. rewrite IH. by destruct x.
Qed.

Lemma foldl_override_loggableEvents (ds : list directive) (v : options) :
  loggableEvents (foldl override v ds)
  = default (loggableEvents v) (last_supplied supplies_loggableEvents ds).
Proof.
  revert v. induction ds as [|x ds IH]; intros v; [done|].
  rewrite last_supplied_cons. simpl. rewrite IH. by destruct x.
Qed.

Lemma override_idempotent (v : options) (x : directive) :
  override (override v x) x = override v x.
Proof. by destruct x. Qed.

(** ** evaluateOptions in an initialised store *)

Section initialised.
Context (σ : store) (d : options).
Hypothesis default_allocated : σ !! defaultOptions = Some d.

(** The prologue of [evaluateOptions]: a fresh record receives a copy of the
    defaults, and the loop runs on it. *)
Lemma evaluateOptions_copy (opts : list Option) :
  evaluateOptions opts σ
  = match range_opts opts (fresh_loc σ) (<[fresh_loc σ := d]> σ) with
    | Some (_, σ') => Some (fresh_loc σ, σ')
    | None => None
    end.
Proof using default_allocated.
  unfold evaluateOptions.
  go_step (eq_refl : new zero_options σ = Some (_, _)).
  assert (<[fresh_loc σ := zero_options]> σ !! defaultOptions = Some d) as Hd.
  { rewrite lookup_insert_ne; [done|apply fresh_loc_not_defaultOptions]. }
  go_step (load_allocated _ _ _ Hd).
  go_step (assign_allocated (fresh_loc σ) (<[fresh_loc σ := zero_options]> σ)
             zero_options d (lookup_insert_eq _ _ _)).
  rewrite insert_insert_eq. unfold mbind, Go_bind.
  by destruct (range_opts opts _ _) as [[[] σ']|].
Qed.

Lemma evaluateOptions_directives (ds : list directive) :
  evaluateOptions (directive_Option <$> ds) σ
  = Some (fresh_loc σ, <[fresh_loc σ := foldl override d ds]> σ).
Proof using default_allocated.
  rewrite evaluateOptions_copy.
  rewrite (range_directives ds _ _ d) by apply lookup_insert_eq.
  by rewrite insert_insert_eq.
Qed.

Lemma snapshot_directives (ds : list directive) :
  snapshot (directive_Option <$> ds) σ = Some (foldl override d ds).
Proof using default_allocated.
  unfold snapshot. rewrite evaluateOptions_directives.
  apply lookup_insert_eq.
Qed.

End initialised.

Lemma init_store_defaultOptions :
  init_store !! defaultOptions = Some defaultOptions_lit.
Proof. reflexivity. Qed.

Lemma defaultOptions_lit_behaviour :
  call_CodeToLevel (levelFunc defaultOptions_lit) OK = Some InfoLevel ∧
  (∀ code : Code, code ≠ OK →
     call_CodeToLevel (levelFunc defaultOptions_lit) code = Some ErrorLevel) ∧
  (∀ (fullMethodName : string) (err : error),
     call_Decider (shouldLog defaultOptions_lit) fullMethodName err = Some true) ∧
  loggableEvents defaultOptions_lit = [StartCall; FinishCall].
Proof.
  repeat split.
  intros code Hcode. simpl. f_equal.
  destruct (N.eqb_spec code OK) as [Heq|Hne]; [contradiction|reflexivity].
Qed.

(** ** The claims about evaluateOptions *)

(** C1: for every sequence of override directives, evaluated in a store in
    which [defaultOptions] points to the record [d], every field of the
    resulting snapshot is the value supplied by the last directive of the
    sequence that targets that field, and the field of [d] when no directive
    targets it.  Moreover a directive that does not target a field has no
    influence on it: removing the directive from the sequence leaves that
    field of the snapshot as it is. *)
Theorem evaluateOptions_last_write_wins
    (ds : list directive) (σ : store) (d : options) :
  σ !! defaultOptions = Some d →
  ∃ o : options,
    snapshot (directive_Option <$> ds) σ = Some o ∧
    levelFunc o = default (levelFunc d) (last_supplied supplies_levelFunc ds) ∧
    shouldLog o = default (shouldLog d) (last_supplied supplies_shouldLog ds) ∧
    loggableEvents o
    = default (loggableEvents d) (last_supplied supplies_loggableEvents ds) ∧
    ∀ (x : directive) (ds1 ds2 : list directive), ds = ds1 ++ x :: ds2 →
      ∃ o' : options,
        snapshot (directive_Option <$> (ds1 ++ ds2)) σ = Some o' ∧
        (supplies_levelFunc x = None → levelFunc o = levelFunc o') ∧
        (supplies_shouldLog x = None → shouldLog o = shouldLog o') ∧
        (supplies_loggableEvents x = None →
           loggableEvents o = loggableEvents o').
Proof.
  intros Hd. exists (foldl override d ds).
  split; [by apply snapshot_directives|].
  split; [apply foldl_override_levelFunc|].
  split; [apply foldl_override_shouldLog|].
  split; [apply foldl_override_loggableEvents|].
  intros x ds1 ds2 ->. exists (foldl override d (ds1 ++ ds2)).
  split; [by apply snapshot_directives|].
  rewrite !foldl_override_levelFunc, !foldl_override_shouldLog,
    !foldl_override_loggableEvents.
  repeat split; intros Hx; by rewrite (last_supplied_skip _ x).
Qed.

Lemma evaluateOptions_last_write_wins_witness :
  init_store !! defaultOptions = Some defaultOptions_lit ∧
  ∃ o : options,
    snapshot [WithLevels None; WithLogOnEvents [PayloadSent];
              WithLevels DefaultCodeToLevelFunc; WithLogOnEvents []] init_store
    = Some o ∧
    levelFunc o = DefaultCodeToLevelFunc ∧
    shouldLog o = DefaultDeciderFunc ∧
    loggableEvents o = [].
Proof.
  split; [reflexivity|].
  destruct (evaluateOptions_last_write_wins
              [CallWithLevels None; CallWithLogOnEvents [PayloadSent];
               CallWithLevels DefaultCodeToLevelFunc; CallWithLogOnEvents []]
              init_store defaultOptions_lit eq_refl)
    as (o & Hsnap & Hlevel & Hdecide & Hevents & _).
  exists o. repeat split; assumption.
Defined.

(** C2: in a store in which [defaultOptions] still points to its initial
    record, [evaluateOptions] of the empty list returns a snapshot whose
    [levelFunc] maps [OK] to [InfoLevel] and every other code to
    [ErrorLevel], whose [shouldLog] returns [true] for every method name and
    error, and whose [loggableEvents] is exactly [StartCall; FinishCall]. *)
Theorem evaluateOptions_nil_defaults (σ : store) :
  σ !! defaultOptions = Some defaultOptions_lit →
  ∃ o : options,
    snapshot [] σ = Some o ∧
    call_CodeToLevel (levelFunc o) OK = Some InfoLevel ∧
    (∀ code : Code, code ≠ OK →
       call_CodeToLevel (levelFunc o) code = Some ErrorLevel) ∧
    (∀ (fullMethodName : string) (err : error),
       call_Decider (shouldLog o) fullMethodName err = Some true) ∧
    loggableEvents o = [StartCall; FinishCall].
Proof.
  intros Hd. exists defaultOptions_lit.
  split; [exact (snapshot_directives σ _ Hd [])|].
  exact defaultOptions_lit_behaviour.
Qed.

Lemma evaluateOptions_nil_defaults_witness :
  init_store !! defaultOptions = Some defaultOptions_lit ∧
  ∃ o : options,
    snapshot [] init_store = Some o ∧
    call_CodeToLevel (levelFunc o) OK = Some InfoLevel ∧
    call_CodeToLevel (levelFunc o) NotFound = Some ErrorLevel ∧
    call_Decider (shouldLog o) "/svc/Method" None = Some true ∧
    loggableEvents o = [StartCall; FinishCall].
Proof.
  split; [reflexivity|].
  destruct (evaluateOptions_nil_defaults init_store eq_refl)
    as (o & Hsnap & Hok & Herr & Hlog & Hevents).
  exists o. repeat split; try assumption.
  - apply Herr. discriminate.
  - apply Hlog.
Defined.

(** C5: [WithLogOnEvents] replaces the event sequence wholesale.  For every
    event sequence [E], the snapshot built from the single option
    [WithLogOnEvents E] stores exactly [E], so that an event is enabled if
    and only if it occurs in [E]; the defaults are not kept.  In particular
    with [E = [PayloadSent]], [StartCall] is not enabled and [PayloadSent]
    is. *)
Theorem WithLogOnEvents_replaces_wholesale
    (E : list LoggableEvent) (σ : store) (d : options) :
  σ !! defaultOptions = Some d →
  (∃ o : options,
     snapshot [WithLogOnEvents E] σ = Some o ∧
     loggableEvents o = E ∧
     ∀ e : LoggableEvent, isEventEnabled o e = true ↔ e ∈ E) ∧
  (∃ o : options,
     snapshot [WithLogOnEvents [PayloadSent]] σ = Some o ∧
     isEventEnabled o StartCall = false ∧
     isEventEnabled o PayloadSent = true).
Proof.
  intros Hd. split.
  - exists (override d (CallWithLogOnEvents E)).
    split; [exact (snapshot_directives σ d Hd [CallWithLogOnEvents E])|].
    split; [reflexivity|].
    intros e. unfold isEventEnabled. simpl. apply bool_decide_eq_true.
  - exists (override d (CallWithLogOnEvents [PayloadSent])).
    split;
      [exact (snapshot_directives σ d Hd [CallWithLogOnEvents [PayloadSent]])|].
    split; reflexivity.
Qed.

Lemma WithLogOnEvents_replaces_wholesale_witness :
  init_store !! defaultOptions = Some defaultOptions_lit ∧
  ∃ o : options,
    snapshot [WithLogOnEvents [PayloadReceived; PayloadSent]] init_store
    = Some o ∧
    loggableEvents o = [PayloadReceived; PayloadSent] ∧
    isEventEnabled o FinishCall = false.
Proof.
  split; [reflexivity|].
  destruct (proj1 (WithLogOnEvents_replaces_wholesale
                     [PayloadReceived; PayloadSent]
                     init_store defaultOptions_lit eq_refl))
    as (o & Hsnap & Hevents & Henabled).
  exists o. split; [assumption|]. split; [assumption|].
  unfold isEventEnabled. rewrite Hevents. reflexivity.
Defined.

(** C6: in the list passed to [evaluateOptions], a directive written twice
    in a row gives the same result as the directive written once: the same
    pointer, the same store, and so a snapshot with the same fields.  This
    holds for each of the three constructors and whatever directives come
    before and after. *)
Theorem directive_twice_as_once
    (x : directive) (ds1 ds2 : list directive) (σ : store) (d : options) :
  σ !! defaultOptions = Some d →
  evaluateOptions (directive_Option <$> (ds1 ++ x :: x :: ds2)) σ
  = evaluateOptions (directive_Option <$> (ds1 ++ x :: ds2)) σ ∧
  ∃ o : options,
    snapshot (directive_Option <$> (ds1 ++ x :: x :: ds2)) σ = Some o ∧
    snapshot (directive_Option <$> (ds1 ++ x :: ds2)) σ = Some o.
Proof.
  intros Hd.
  assert (foldl override d (ds1 ++ x :: x :: ds2)
          = foldl override d (ds1 ++ x :: ds2)) as Hfold.
  { rewrite !foldl_app. simpl. by rewrite override_idempotent. }
  split.
  - rewrite !(evaluateOptions_directives σ d Hd). by rewrite Hfold.
  - exists (foldl override d (ds1 ++ x :: ds2)).
    rewrite !(snapshot_directives σ d Hd). by rewrite Hfold.
Qed.

Lemma directive_twice_as_once_witness :
  init_store !! defaultOptions = Some defaultOptions_lit ∧
  ∃ o : options,
    snapshot [WithLogOnEvents [PayloadSent]; WithLogOnEvents [PayloadSent]]
      init_store = Some o ∧
    snapshot [WithLogOnEvents [PayloadSent]] init_store = Some o.
Proof.
  split; [reflexivity|].
  exact (proj2 (directive_twice_as_once (CallWithLogOnEvents [PayloadSent])
                  [] [] init_store defaultOptions_lit eq_refl)).
Defined.

(** C7: each constructor returns an option that writes exactly one field.
    Called with a pointer [p] to a record [v], the option of [WithLevels f]
    leaves at [p] a record whose [levelFunc] is [f] and whose [shouldLog]
    and [loggableEvents] are those of [v]; likewise [WithDecider f] writes
    only [shouldLog] and [WithLogOnEvents events] only [loggableEvents].
    No other record of the store is touched. *)
Theorem constructors_write_one_field (p : loc) (σ : store) (v : options) :
  σ !! p = Some v →
  (∀ f : CodeToLevel, ∃ (σ' : store) (v' : options),
     call_Option (WithLevels f) p σ = Some ((), σ') ∧ σ' !! p = Some v' ∧
     levelFunc v' = f ∧
     shouldLog v' = shouldLog v ∧
     loggableEvents v' = loggableEvents v ∧
     ∀ q : loc, q ≠ p → σ' !! q = σ !! q) ∧
  (∀ f : Decider, ∃ (σ' : store) (v' : options),
     call_Option (WithDecider f) p σ = Some ((), σ') ∧ σ' !! p = Some v' ∧
     levelFunc v' = levelFunc v ∧
     shouldLog v' = f ∧
     loggableEvents v' = loggableEvents v ∧
     ∀ q : loc, q ≠ p → σ' !! q = σ !! q) ∧
  (∀ events : list LoggableEvent, ∃ (σ' : store) (v' : options),
     call_Option (WithLogOnEvents events) p σ = Some ((), σ') ∧
     σ' !! p = Some v' ∧
     levelFunc v' = levelFunc v ∧
     shouldLog v' = shouldLog v ∧
     loggableEvents v' = events ∧
     ∀ q : loc, q ≠ p → σ' !! q = σ !! q).
Proof.
  intros Hp.
  assert (∀ x : directive, ∃ (σ' : store) (v' : options),
            call_Option (directive_Option x) p σ = Some ((), σ') ∧
            σ' !! p = Some v' ∧ v' = override v x ∧
            ∀ q : loc, q ≠ p → σ' !! q = σ !! q) as Hcall.
  { intros x. exists (<[p := override v x]> σ), (override v x).
    split; [by apply call_directive|].
    split; [apply lookup_insert_eq|]. split; [done|].
    intros q Hq. by rewrite lookup_insert_ne. }
  split; [|split].
  - intros f. destruct (Hcall (CallWithLevels f)) as (σ' & v' & ? & ? & -> & ?).
    exists σ', (override v (CallWithLevels f)). by repeat split.
  - intros f. destruct (Hcall (CallWithDecider f)) as (σ' & v' & ? & ? & -> & ?).
    exists σ', (override v (CallWithDecider f)). by repeat split.
  - intros events.
    destruct (Hcall (CallWithLogOnEvents events)) as (σ' & v' & ? & ? & -> & ?).
    exists σ', (override v (CallWithLogOnEvents events)). by repeat split.
Qed.

Lemma constructors_write_one_field_witness :
  init_store !! defaultOptions = Some defaultOptions_lit ∧
  ∃ (σ' : store) (v' : options),
    call_Option (WithLogOnEvents [PayloadSent]) defaultOptions init_store
    = Some ((), σ') ∧
    σ' !! defaultOptions = Some v' ∧
    levelFunc v' = DefaultCodeToLevelFunc ∧
    shouldLog v' = DefaultDeciderFunc ∧
    loggableEvents v' = [PayloadSent].
Proof.
  split; [reflexivity|].
  destruct (proj2 (proj2 (constructors_write_one_field
                            defaultOptions init_store defaultOptions_lit eq_refl))
              [PayloadSent])
    as (σ' & v' & Hcall & Hp & Hlevel & Hdecide & Hevents & _).
  exists σ', v'. repeat split; assumption.
Defined.

(** C8: [evaluateOptions] works on a private copy.  For every list of
    override directives, the call returns a pointer to a record that was not
    allocated before, every record that was allocated before is left as it
    was, [defaultOptions] in particular still points to the record [d] it
    pointed to, and a later call with the empty list returns a snapshot equal
    to [d]. *)
Theorem evaluateOptions_leaves_defaultOptions
    (ds : list directive) (σ : store) (d : options) :
  σ !! defaultOptions = Some d →
  ∃ (p : loc) (σ' : store),
    evaluateOptions (directive_Option <$> ds) σ = Some (p, σ') ∧
    p ≠ defaultOptions ∧
    σ !! p = None ∧
    (∀ q : loc, q ≠ p → σ' !! q = σ !! q) ∧
    σ' !! defaultOptions = Some d ∧
    snapshot [] σ' = Some d.
Proof.
  intros Hd.
  set (p := fresh_loc σ).
  assert (p ≠ defaultOptions) as Hp by apply fresh_loc_not_defaultOptions.
  assert (<[p := foldl override d ds]> σ !! defaultOptions = Some d) as Hd'.
  { by rewrite lookup_insert_ne. }
  exists p, (<[p := foldl override d ds]> σ).
  split; [by apply evaluateOptions_directives|].
  split; [exact Hp|].
  split; [apply fresh_loc_not_allocated|].
  split; [intros q Hq; by rewrite lookup_insert_ne|].
  split; [exact Hd'|].
  exact (snapshot_directives _ d Hd' []).
Qed.

Lemma evaluateOptions_leaves_defaultOptions_witness :
  init_store !! defaultOptions = Some defaultOptions_lit ∧
  ∃ (p : loc) (σ' : store),
    evaluateOptions [WithLevels None; WithDecider None; WithLogOnEvents []]
      init_store = Some (p, σ') ∧
    σ' !! defaultOptions = Some defaultOptions_lit ∧
    snapshot [] σ' = Some defaultOptions_lit.
Proof.
  split; [reflexivity|].
  destruct (evaluateOptions_leaves_defaultOptions
              [CallWithLevels None; CallWithDecider None; CallWithLogOnEvents []]
              init_store defaultOptions_lit eq_refl)
    as (p & σ' & Heval & _ & _ & _ & Hd & Hsnap).
  exists p, σ'. repeat split; assumption.
Defined.

(** C9: [evaluateOptions] cannot fail on total options.  In a store in which
    [defaultOptions] is allocated, for every list of options each of which is
    a total function on the options record, the call returns a pointer to an
    allocated record; neither the copy of the defaults nor the loop panics.
    The options built by the three constructors are total, whatever their
    arguments. *)
Theorem evaluateOptions_total (opts : list Option) (σ : store) :
  is_Some (σ !! defaultOptions) →
  Forall total_Option opts →
  (∃ (p : loc) (σ' : store),
     evaluateOptions opts σ = Some (p, σ') ∧ is_Some (σ' !! p)) ∧
  ∀ ds : list directive, Forall total_Option (directive_Option <$> ds).
Proof.
  intros [d Hd] Hall. split.
  - destruct (range_total opts (fresh_loc σ) (<[fresh_loc σ := d]> σ) Hall)
      as (σ' & Hrange & Hp).
    { rewrite lookup_insert_eq. eauto. }
    exists (fresh_loc σ), σ'. split; [|exact Hp].
    by rewrite (evaluateOptions_copy σ d Hd), Hrange.
  - intros ds. apply Forall_fmap, Forall_forall. intros x _.
    apply directive_total.
Qed.

Lemma evaluateOptions_total_witness :
  is_Some (init_store !! defaultOptions) ∧
  Forall total_Option [WithDecider None; WithLogOnEvents [PayloadSent]] ∧
  ∃ (p : loc) (σ' : store),
    evaluateOptions [WithDecider None; WithLogOnEvents [PayloadSent]] init_store
    = Some (p, σ') ∧ is_Some (σ' !! p).
Proof.
  assert (is_Some (init_store !! defaultOptions)) as Hd
    by (exists defaultOptions_lit; reflexivity).
  assert (Forall total_Option [WithDecider None; WithLogOnEvents [PayloadSent]])
    as Hall.
  { repeat constructor.
    - apply (directive_total (CallWithDecider None)).
    - apply (directive_total (CallWithLogOnEvents [PayloadSent])). }
  split; [exact Hd|]. split; [exact Hall|].
  exact (proj1 (evaluateOptions_total _ init_store Hd Hall)).
Defined.

(** C10: [WithLogOnEvents] called with no event is not the same as no
    option at all.  Where [defaultOptions] points to its initial record, the
    snapshot built from [WithLogOnEvents()] has an empty [loggableEvents],
    so that no event is enabled, [StartCall] and [FinishCall] included,
    whereas the snapshot built from the empty list keeps
    [StartCall; FinishCall], both enabled. *)
Theorem WithLogOnEvents_no_event_disables_all (σ : store) :
  σ !! defaultOptions = Some defaultOptions_lit →
  (∃ o : options,
     snapshot [WithLogOnEvents []] σ = Some o ∧
     loggableEvents o = [] ∧
     ∀ e : LoggableEvent, isEventEnabled o e = false) ∧
  (∃ o : options,
     snapshot [] σ = Some o ∧
     loggableEvents o = [StartCall; FinishCall] ∧
     isEventEnabled o StartCall = true ∧
     isEventEnabled o FinishCall = true).
Proof.
  intros Hd. split.
  - exists (override defaultOptions_lit (CallWithLogOnEvents [])).
    split; [exact (snapshot_directives σ _ Hd [CallWithLogOnEvents []])|].
    split; [reflexivity|].
    intros e. unfold isEventEnabled.
    apply bool_decide_eq_false. simpl. apply not_elem_of_nil.
  - exists defaultOptions_lit.
    split; [exact (snapshot_directives σ _ Hd [])|].
    repeat split.
Qed.

Lemma WithLogOnEvents_no_event_disables_all_witness :
  init_store !! defaultOptions = Some defaultOptions_lit ∧
  ∃ o : options,
    snapshot [WithLogOnEvents []] init_store = Some o ∧
    isEventEnabled o StartCall = false ∧
    isEventEnabled o FinishCall = false.
Proof.
  split; [reflexivity|].
  destruct (proj1 (WithLogOnEvents_no_event_disables_all init_store eq_refl))
    as (o & Hsnap & _ & Hdisabled).
  exists o. split; [assumption|]. split; apply Hdisabled.
Defined.

(** * Further properties of the builder *)

(** ** Panics and the returned pointer, for arbitrary options *)

Lemma range_opts_nil_Option (opts : list Option) (p : loc) (σ : store) :
  None ∈ opts → range_opts opts p σ = None.
Proof.
  revert σ. induction opts as [|o opts IH]; intros σ Hin.
  - by apply not_elem_of_nil in Hin.
  - apply elem_of_cons in Hin. simpl. unfold mbind, Go_bind.
    destruct o as [g|]; [|done]. simpl.
    destruct Hin as [Heq|Hin]; [done|].
    destruct (g p σ) as [[[] σ1]|]; [by apply IH|done].
Qed.

Lemma range_opts_app (opts1 opts2 : list Option) (p : loc) (σ : store) :
  range_opts (opts1 ++ opts2) p σ
  = (range_opts opts1 p;; range_opts opts2 p) σ.
Proof.
  revert σ. induction opts1 as [|o opts1 IH]; intros σ; simpl; [done|].
  unfold mbind, Go_bind.
  destruct (call_Option o p σ) as [[[] σ1]|]; [|done].
  rewrite IH. reflexivity.
Qed.

Lemma evaluateOptions_unallocated (opts : list Option) (σ : store) :
  σ !! defaultOptions = None → evaluateOptions opts σ = None.
Proof.
  intros Hd. unfold evaluateOptions.
  go_step (eq_refl : new zero_options σ = Some (_, _)).
  unfold mbind, Go_bind, load.
  rewrite lookup_insert_ne by apply fresh_loc_not_defaultOptions.
  by rewrite Hd.
Qed.

(** X1: a nil option anywhere in the list makes [evaluateOptions] panic,
    whatever the other options and whatever the store. *)
Theorem nil_Option_panics (opts : list Option) (σ : store) :
  None ∈ opts → evaluateOptions opts σ = None.
Proof.
  intros Hin. destruct (σ !! defaultOptions) as [d|] eqn:Hd.
  - rewrite (evaluateOptions_copy σ d Hd).
    by rewrite (range_opts_nil_Option opts _ _ Hin).
  - by apply evaluateOptions_unallocated.
Qed.

Lemma nil_Option_panics_witness :
  None ∈ [WithDecider DefaultDeciderFunc; None; WithLogOnEvents []] ∧
  evaluateOptions [WithDecider DefaultDeciderFunc; None; WithLogOnEvents []]
    init_store = None.
Proof.
  assert (None ∈ [WithDecider DefaultDeciderFunc; None; WithLogOnEvents []])
    as Hin by (apply list_elem_of_further, list_elem_of_here).
  split; [exact Hin|]. exact (nil_Option_panics _ init_store Hin).
Defined.

(** X2: whatever the options do, when [evaluateOptions] returns, the pointer
    it returns is that of a record that was not allocated before the call:
    it is never [defaultOptions] itself nor any earlier snapshot.  And it
    returns only if [defaultOptions] is allocated. *)
Theorem evaluateOptions_returns_new_record
    (opts : list Option) (σ σ' : store) (p : loc) :
  evaluateOptions opts σ = Some (p, σ') →
  p ≠ defaultOptions ∧ σ !! p = None ∧ is_Some (σ !! defaultOptions).
Proof.
  intros Heval. destruct (σ !! defaultOptions) as [d|] eqn:Hd.
  - rewrite (evaluateOptions_copy σ d Hd) in Heval.
    destruct (range_opts opts _ _) as [[[] σ1]|]; [|done].
    injection Heval as <- _.
    split; [apply fresh_loc_not_defaultOptions|].
    split; [apply fresh_loc_not_allocated|eauto].
  - by rewrite (evaluateOptions_unallocated opts σ Hd) in Heval.
Qed.

Lemma evaluateOptions_returns_new_record_witness :
  evaluateOptions [WithLevels None] init_store
  = Some (2%positive,
          <[2%positive := override defaultOptions_lit (CallWithLevels None)]>
            init_store) ∧
  (2%positive : loc) ≠ defaultOptions ∧
  init_store !! 2%positive = None.
Proof.
  assert (evaluateOptions [WithLevels None] init_store
          = Some (2%positive,
                  <[2%positive := override defaultOptions_lit
                                    (CallWithLevels None)]> init_store))
    as Heval by reflexivity.
  split; [exact Heval|].
  destruct (evaluateOptions_returns_new_record _ _ _ _ Heval)
    as (Hp & Hfresh & _).
  split; assumption.
Defined.

(** X3: options passed at the end of the list act exactly as if they were
    called, in order, on the record returned for the beginning of the list.
    This holds for arbitrary options, panics included. *)
Theorem evaluateOptions_app (opts1 opts2 : list Option) (σ : store) :
  evaluateOptions (opts1 ++ opts2) σ
  = (p ← evaluateOptions opts1; range_opts opts2 p;; mret p) σ.
Proof.
  destruct (σ !! defaultOptions) as [d|] eqn:Hd.
  - unfold mbind at 1, Go_bind at 1.
    rewrite !(evaluateOptions_copy σ d Hd), range_opts_app.
    unfold mbind at 1, Go_bind at 1.
    destruct (range_opts opts1 _ _) as [[[] σ1]|]; [|done].
    unfold mbind, Go_bind.
    by destruct (range_opts opts2 _ _) as [[[] σ2]|].
  - unfold mbind at 1, Go_bind at 1.
    by rewrite !(evaluateOptions_unallocated _ σ Hd).
Qed.

(** ** How directives compose *)

Lemma override_commute (v : options) (x y : directive) :
  target x ≠ target y →
  override (override v x) y = override (override v y) x.
Proof. by destruct x, y. Qed.

Lemma override_shadow (v : options) (x y : directive) :
  target x = target y → override (override v x) y = override v y.
Proof. by destruct x, y. Qed.

Lemma foldl_override_shadow (x y : directive) (ds : list directive) (v : options) :
  target x = target y →
  override (foldl override (override v x) ds) y
  = override (foldl override v ds) y.
Proof.
  intros Hxy. revert v. induction ds as [|z ds IH]; intros v; simpl.
  - by apply override_shadow.
  - destruct (decide (target x = target z)) as [Hxz|Hxz].
    + by rewrite override_shadow.
    + rewrite override_commute by done. apply IH.
Qed.

(** X4: two snapshots built one after the other do not interfere.  The
    second call returns a pointer different from the first, leaves the
    record behind the first pointer as it was, and builds the same snapshot
    as it would have built without the first call. *)
Theorem successive_snapshots_independent
    (ds1 ds2 : list directive) (σ : store) (d : options) :
  σ !! defaultOptions = Some d →
  ∃ (p1 p2 : loc) (σ1 σ2 : store) (o1 o2 : options),
    evaluateOptions (directive_Option <$> ds1) σ = Some (p1, σ1) ∧
    evaluateOptions (directive_Option <$> ds2) σ1 = Some (p2, σ2) ∧
    p1 ≠ p2 ∧
    σ1 !! p1 = Some o1 ∧ σ2 !! p1 = Some o1 ∧
    σ2 !! p2 = Some o2 ∧
    snapshot (directive_Option <$> ds2) σ = Some o2.
Proof.
  intros Hd.
  set (p1 := fresh_loc σ). set (σ1 := <[p1 := foldl override d ds1]> σ).
  assert (σ1 !! defaultOptions = Some d) as Hd1.
  { unfold σ1. rewrite lookup_insert_ne; [done|].
    apply fresh_loc_not_defaultOptions. }
  assert (σ1 !! p1 = Some (foldl override d ds1)) as Hp1
    by apply lookup_insert_eq.
  set (p2 := fresh_loc σ1).
  assert (p1 ≠ p2) as Hne.
  { intros Heq. pose proof (fresh_loc_not_allocated σ1) as Hfresh.
    fold p2 in Hfresh. rewrite <- Heq, Hp1 in Hfresh. discriminate. }
  exists p1, p2, σ1, (<[p2 := foldl override d ds2]> σ1),
    (foldl override d ds1), (foldl override d ds2).
  split; [by apply evaluateOptions_directives|].
  split; [by apply evaluateOptions_directives|].
  split; [exact Hne|]. split; [exact Hp1|].
  split; [by rewrite lookup_insert_ne|].
  split; [apply lookup_insert_eq|].
  by apply snapshot_directives.
Qed.

Lemma successive_snapshots_independent_witness :
  init_store !! defaultOptions = Some defaultOptions_lit ∧
  ∃ (p1 p2 : loc) (σ1 σ2 : store) (o1 : options),
    evaluateOptions [WithLogOnEvents [PayloadSent]] init_store = Some (p1, σ1) ∧
    evaluateOptions [WithLevels None] σ1 = Some (p2, σ2) ∧
    p1 ≠ p2 ∧ σ1 !! p1 = Some o1 ∧ σ2 !! p1 = Some o1.
Proof.
  split; [reflexivity|].
  destruct (successive_snapshots_independent
              [CallWithLogOnEvents [PayloadSent]] [CallWithLevels None]
              init_store defaultOptions_lit eq_refl)
    as (p1 & p2 & σ1 & σ2 & o1 & o2 & H1 & H2 & Hne & Hp1 & Hp1' & _).
  exists p1, p2, σ1, σ2, o1. repeat split; assumption.
Defined.

(** X5: two adjacent directives that write different fields can be swapped
    without changing the snapshot, whatever comes before and after. *)
Theorem directives_on_different_fields_commute
    (x y : directive) (ds1 ds2 : list directive) (σ : store) (d : options) :
  σ !! defaultOptions = Some d →
  target x ≠ target y →
  ∃ o : options,
    snapshot (directive_Option <$> (ds1 ++ x :: y :: ds2)) σ = Some o ∧
    snapshot (directive_Option <$> (ds1 ++ y :: x :: ds2)) σ = Some o.
Proof.
  intros Hd Hxy. exists (foldl override d (ds1 ++ x :: y :: ds2)).
  rewrite !(snapshot_directives σ d Hd). split; [done|].
  rewrite !foldl_app. simpl. by rewrite (override_commute _ x y).
Qed.

Lemma directives_on_different_fields_commute_witness :
  init_store !! defaultOptions = Some defaultOptions_lit ∧
  target (CallWithLevels None) ≠ target (CallWithLogOnEvents [PayloadSent]) ∧
  ∃ o : options,
    snapshot [WithLevels None; WithLogOnEvents [PayloadSent]] init_store
    = Some o ∧
    snapshot [WithLogOnEvents [PayloadSent]; WithLevels None] init_store
    = Some o.
Proof.
  assert (target (CallWithLevels None)
          ≠ target (CallWithLogOnEvents [PayloadSent])) as Hne by discriminate.
  split; [reflexivity|]. split; [exact Hne|].
  exact (directives_on_different_fields_commute
           (CallWithLevels None) (CallWithLogOnEvents [PayloadSent])
           [] [] init_store defaultOptions_lit eq_refl Hne).
Defined.

(** X6: a directive that is followed, anywhere later in the list, by a
    directive writing the same field has no effect on the snapshot: it can
    be removed from the list. *)
Theorem overwritten_directive_has_no_effect
    (x y : directive) (ds1 ds2 ds3 : list directive) (σ : store) (d : options) :
  σ !! defaultOptions = Some d →
  target x = target y →
  ∃ o : options,
    snapshot (directive_Option <$> (ds1 ++ x :: ds2 ++ y :: ds3)) σ = Some o ∧
    snapshot (directive_Option <$> (ds1 ++ ds2 ++ y :: ds3)) σ = Some o.
Proof.
  intros Hd Hxy. exists (foldl override d (ds1 ++ ds2 ++ y :: ds3)).
  rewrite !(snapshot_directives σ d Hd). split; [|done].
  rewrite !foldl_app. simpl. rewrite !foldl_app. simpl.
  by rewrite foldl_override_shadow.
Qed.

Lemma overwritten_directive_has_no_effect_witness :
  init_store !! defaultOptions = Some defaultOptions_lit ∧
  target (CallWithLogOnEvents [PayloadSent]) = target (CallWithLogOnEvents []) ∧
  ∃ o : options,
    snapshot [WithLogOnEvents [PayloadSent]; WithDecider None;
              WithLogOnEvents []] init_store = Some o ∧
    snapshot [WithDecider None; WithLogOnEvents []] init_store = Some o.
Proof.
  split; [reflexivity|]. split; [reflexivity|].
  exact (overwritten_directive_has_no_effect
           (CallWithLogOnEvents [PayloadSent]) (CallWithLogOnEvents [])
           [] [CallWithDecider None] [] init_store defaultOptions_lit
           eq_refl eq_refl).
Defined.

(** ** What ends up in the snapshot *)

Lemma options_eq (v w : options) :
  levelFunc v = levelFunc w → shouldLog v = shouldLog w →
  loggableEvents v = loggableEvents w → v = w.
Proof. destruct v, w. simpl. by intros -> -> ->. Qed.

Lemma last_supplied_writers {A : Type} (sel : directive → option A) (f : field) :
  (∀ x : directive, target x = f ↔ is_Some (sel x)) →
  ∀ ds : list directive, last_supplied sel ds = last (writers f ds) ≫= sel.
Proof.
  intros Hsel ds. unfold last_supplied, writers.
  induction ds as [|x ds IH] using rev_ind; [done|].
  rewrite omap_app, filter_app, !last_app.
  change (omap sel [x]) with (match sel x with Some a => [a] | None => [] end).
  change (filter (λ y, target y = f) [x])
    with (if decide (target x = f) then [x] else []).
  destruct (decide (target x = f)) as [Hx|Hx].
  - destruct (proj1 (Hsel x) Hx) as [a Ha]. rewrite Ha. simpl. by rewrite Ha.
  - destruct (sel x) as [a|] eqn:Ha; [|exact IH].
    destruct Hx. apply Hsel. eauto.
Qed.

Lemma supplies_levelFunc_target (x : directive) :
  target x = LevelFunc ↔ is_Some (supplies_levelFunc x).
Proof. destruct x; simpl; split; (done || eauto || by intros []). Qed.

Lemma supplies_shouldLog_target (x : directive) :
  target x = ShouldLog ↔ is_Some (supplies_shouldLog x).
Proof. destruct x; simpl; split; (done || eauto || by intros []). Qed.

Lemma supplies_loggableEvents_target (x : directive) :
  target x = LoggableEvents ↔ is_Some (supplies_loggableEvents x).
Proof. destruct x; simpl; split; (done || eauto || by intros []). Qed.



(** X8: events other than [StartCall] and [FinishCall] are logged only on
    request.  Starting from the initial defaults, every event of the
    snapshot's [loggableEvents] is [StartCall], [FinishCall], or an event of
    the sequence given to some [WithLogOnEvents] of the list; and a list
    without any [WithLogOnEvents] keeps exactly [StartCall; FinishCall]. *)
Theorem events_beyond_defaults_are_requested (ds : list directive) (σ : store) :
  σ !! defaultOptions = Some defaultOptions_lit →
  ∃ o : options,
    snapshot (directive_Option <$> ds) σ = Some o ∧
    (∀ e : LoggableEvent, e ∈ loggableEvents o →
       e = StartCall ∨ e = FinishCall ∨
       ∃ events : list LoggableEvent,
         CallWithLogOnEvents events ∈ ds ∧ e ∈ events) ∧
    (writers LoggableEvents ds = [] →
       loggableEvents o = [StartCall; FinishCall]).
Proof.
  intros Hd. exists (foldl override defaultOptions_lit ds).
  split; [by apply snapshot_directives|].
  rewrite foldl_override_loggableEvents. split.
  - intros e He.
    destruct (last_supplied supplies_loggableEvents ds) as [events|] eqn:Hlast.
    + right. right. exists events. split; [|exact He].
      unfold last_supplied in Hlast. apply last_Some_elem_of in Hlast.
      apply list_elem_of_omap in Hlast as (x & Hx & Hsel).
      destruct x; simpl in Hsel; by simplify_eq.
    + simpl in He. apply elem_of_cons in He as [->|He]; [by left|].
      apply elem_of_cons in He as [->|He]; [by right; left|].
      by apply not_elem_of_nil in He.
  - intros Hnone.
    rewrite (last_supplied_writers _ _ supplies_loggableEvents_target).
    by rewrite Hnone.
Qed.

Lemma events_beyond_defaults_are_requested_witness :
  init_store !! defaultOptions = Some defaultOptions_lit ∧
  writers LoggableEvents [CallWithLevels None; CallWithDecider None] = [] ∧
  ∃ o : options,
    snapshot [WithLevels None; WithDecider None] init_store = Some o ∧
    loggableEvents o = [StartCall; FinishCall].
Proof.
  split; [reflexivity|]. split; [reflexivity|].
  destruct (events_beyond_defaults_are_requested
              [CallWithLevels None; CallWithDecider None] init_store eq_refl)
    as (o & Hsnap & _ & Hkeep).
  exists o. split; [exact Hsnap|]. by apply Hkeep.
Defined.

(** X9: the snapshot depends on the list only through the last directive
    writing each field.  Two lists that agree, for each of the three fields,
    on the last directive writing it (or on having none) give the same
    snapshot, whatever their lengths and orders otherwise. *)
Theorem snapshot_determined_by_last_writers
    (ds ds' : list directive) (σ : store) (d : options) :
  σ !! defaultOptions = Some d →
  (∀ f : field, last (writers f ds) = last (writers f ds')) →
  ∃ o : options,
    snapshot (directive_Option <$> ds) σ = Some o ∧
    snapshot (directive_Option <$> ds') σ = Some o.
Proof.
  intros Hd Hlast. exists (foldl override d ds).
  rewrite !(snapshot_directives σ d Hd). split; [done|]. f_equal.
  apply options_eq.
  - rewrite !foldl_override_levelFunc.
    rewrite !(last_supplied_writers _ _ supplies_levelFunc_target).
    by rewrite Hlast.
  - rewrite !foldl_override_shouldLog.
    rewrite !(last_supplied_writers _ _ supplies_shouldLog_target).
    by rewrite Hlast.
  - rewrite !foldl_override_loggableEvents.
    rewrite !(last_supplied_writers _ _ supplies_loggableEvents_target).
    by rewrite Hlast.
Qed.

Lemma snapshot_determined_by_last_writers_witness :
  init_store !! defaultOptions = Some defaultOptions_lit ∧
  ∃ o : options,
    snapshot [WithLogOnEvents []; WithLevels None;
              WithLogOnEvents [PayloadSent]] init_store = Some o ∧
    snapshot [WithLogOnEvents [PayloadSent]; WithLevels None] init_store
    = Some o.
Proof.
  split; [reflexivity|].
  refine (snapshot_determined_by_last_writers
            [CallWithLogOnEvents []; CallWithLevels None;
             CallWithLogOnEvents [PayloadSent]]
            [CallWithLogOnEvents [PayloadSent]; CallWithLevels None]
            init_store defaultOptions_lit eq_refl _).
  intros f. destruct f; reflexivity.
Defined.
